(** * Spotify History Analysis dashboard: the filter-and-aggregate pipeline

    A shallow embedding of [dashboard.py]: the loader ([load_data]), the
    three multiselect filters, the boolean-mask filter and the aggregate
    tables computed from the filtered frame, together with the pandas
    operations they are built from ([unique], [isin], [value_counts],
    [sort_index], [groupby(...).sum()], [sort_values], [head]).

    Conventions.
    - A text cell is a [string] (a byte string; byte-wise lexicographic
      order on UTF-8 is code-point order, the order Python compares [str]
      with).  Missing cells are outside the data model.
    - [ms_played] is an [int64] column: every cell is a [Z] within the
      int64 range, and sums wrap modulo 2^64.  A file with a cell outside
      that range is read as another dtype and is outside the model; the
      statements about sums say where they rely on this.
    - [np.argsort], which [sort_values] and [value_counts] sort with, is a
      parameter: it sorts, and nothing is assumed about ties.
    - A parsed [ts] cell is [datetime64[ns]]: nanoseconds since the epoch,
      or [None] for [NaT].
    - [float64] values are IEEE binary64 numbers, computed with the
      Standard Library's executable specification [SpecFloat]. *)

From Stdlib Require Import ZArith Lia String Ascii DecimalString SpecFloat.
From HB Require Import structures.
From mathcomp Require Import ssreflect ssrfun ssrbool eqtype ssrnat seq path bigop.

Set Implicit Arguments.
Unset Strict Implicit.
Unset Printing Implicit Defensive.

(** ** Equality structures for the cell types *)

HB.instance Definition _ := hasDecEq.Build string String.eqb_spec.
HB.instance Definition _ := hasDecEq.Build Z Z.eqb_spec.

Definition spec_float_eq_dec (x y : spec_float) : {x = y} + {x <> y}.
Proof.
decide equality; solve [apply: Bool.bool_dec | apply: Z.eq_dec | apply: Pos.eq_dec].
Defined.

HB.instance Definition _ := hasDecEq.Build spec_float (compareP spec_float_eq_dec).

(** ** The order Python compares strings with *)

Module StrOrd.

Definition le : rel string := String.leb.
Definition lt : rel string := String.ltb.

End StrOrd.

(** ** [int64] arithmetic

    numpy adds [int64] values modulo 2^64 and never raises on overflow. *)

Module Int64.

Definition min_int : Z := - 2 ^ 63.
Definition max_int : Z := 2 ^ 63 - 1.

Definition in_range (z : Z) : bool := (min_int <=? z)%Z && (z <=? max_int)%Z.

Definition wrap (z : Z) : Z := ((z + 2 ^ 63) mod 2 ^ 64 - 2 ^ 63)%Z.

Definition add (x y : Z) : Z := wrap (x + y).

(** [Series.sum()] on an [int64] column: [add.reduce] from 0. *)
Definition sum (s : seq Z) : Z := foldl add 0%Z s.

(** The mathematical sum, for comparison. *)
Definition exact_sum (s : seq Z) : Z := foldr Z.add 0%Z s.

End Int64.

(** ** [float64] arithmetic and Python's fixed-point formatting *)

Module Float64.

Definition prec : Z := 53.
Definition emax : Z := 1024.

Definition float64 := spec_float.

(** Conversion of an integer to the nearest double (ties to even). *)
Definition of_Z (z : Z) : float64 := binary_normalize prec emax z 0 false.

(** True division of two doubles. *)
Definition div (x y : float64) : float64 := SFdiv prec emax x y.

(** [x / y] where [x] is an [int64] scalar and [y] a Python [int]: both
    operands are converted to [float64] and divided. *)
Definition int_div (x y : Z) : float64 := div (of_Z x) (of_Z y).

Definition is_negative (x : float64) : bool :=
  match x with
  | S754_zero s | S754_infinity s | S754_finite s _ _ => s
  | S754_nan => false
  end.

(** |x| * 10^k rounded to an integer, ties to even, computed on the exact
    binary value: what [format(x, ".kf")] prints, without the point. *)
Definition round_scaled (k : nat) (x : float64) : Z :=
  match x with
  | S754_finite _ m e =>
      let n := (Zpos m * 10 ^ Z.of_nat k)%Z in
      if (0 <=? e)%Z then (n * 2 ^ e)%Z
      else
        let d := (2 ^ (- e))%Z in
        let q := (n / d)%Z in
        let r := (n mod d)%Z in
        match (2 * r ?= d)%Z with
        | Lt => q
        | Gt => (q + 1)%Z
        | Eq => if Z.even q then q else (q + 1)%Z
        end
  | _ => 0%Z
  end.

Definition digits (n : Z) : seq ascii :=
  list_ascii_of_string (NilZero.string_of_uint (N.to_uint (Z.to_N n))).

(** Thousands separators, on the digits taken from the least significant. *)
Fixpoint group3 (rds : seq ascii) : seq ascii :=
  match rds with
  | a :: ((b :: (c :: ((_ :: _) as rest))) as _) =>
      a :: b :: c :: ","%char :: group3 rest
  | _ => rds
  end.

Definition commas (ds : seq ascii) : seq ascii := rev (group3 (rev ds)).

(** [f"{x:,.1f}"] for a finite [x]. *)
Definition format_1f (x : float64) : string :=
  let t := round_scaled 1 x in
  string_of_list_ascii
    ((if is_negative x then [:: "-"%char] else [::]) ++
     commas (digits (t / 10)) ++ "."%char :: digits (t mod 10)).

End Float64.

(** ** The pandas operations the script is built from *)

Module Pandas.

Section Series.

Variable T : eqType.

(** [Series.unique()]: the distinct values, in order of first appearance. *)
Fixpoint unique (s : seq T) : seq T :=
  if s is x :: s' then x :: [seq y <- unique s' | y != x] else [::].

(** [Series.isin(values)]: the boolean mask of the cells found in [values]. *)
Definition isin (s values : seq T) : bitseq := [seq x \in values | x <- s].

(** [dropna] on a column whose missing cells are [None]. *)
Definition dropna (s : seq (option T)) : seq T := pmap id s.

End Series.

(** [np.argsort] of an integer array with the default [kind="quicksort"]:
    a library function, taken as a parameter.  It returns the positions
    0..n-1 in an order that lists the values in ascending order; which of
    two equal values comes first is the kernel's business (numpy makes no
    promise, and the answer changes with the array length and the
    machine). *)
Record argsort_kernel := ArgsortKernel {
  argsort :> seq Z -> seq nat;
  argsort_perm : forall s, perm_eq (argsort s) (iota 0 (size s));
  argsort_sorted : forall s, sorted Z.leb [seq nth 0%Z s i | i <- argsort s]
}.

Section Tables.

Variables (I V : Type).

(** [s.iloc[idx]]: the rows at the given positions. *)
Definition take_rows (A : Type) (s : seq A) (idx : seq nat) : seq A :=
  if s is x0 :: _ then [seq nth x0 s i | i <- idx] else [::].

(** [sort_values(ascending=...)] on a Series held as (index, value) rows
    whose values are integers ([int64_of] reads them).  The values alone
    go to the kernel; the rows are then taken in the order it returns.
    pandas sorts a descending Series by reversing it, sorting that
    ascending and reversing the outcome. *)
Definition sort_values (kernel : argsort_kernel) (int64_of : V -> Z)
    (ascending : bool) (s : seq (I * V)) : seq (I * V) :=
  let ascending_by_kernel t :=
    take_rows t (kernel [seq int64_of p.2 | p <- t]) in
  if ascending then ascending_by_kernel s
  else rev (ascending_by_kernel (rev s)).

(** [sort_index()]: rows in ascending order of their index label. *)
Definition sort_index (leK : rel I) (s : seq (I * V)) : seq (I * V) :=
  sort (relpre fst leK) s.

(** [head(n)]. *)
Definition head (A : Type) (n : nat) (s : seq A) : seq A := take n s.

End Tables.

Section Counting.

Variable T : eqType.

(** [Series.value_counts()]: one row per distinct value with its number of
    occurrences, most frequent first. *)
Definition value_counts (kernel : argsort_kernel) (s : seq T) : seq (T * nat) :=
  sort_values kernel Z.of_nat false [seq (x, count_mem x s) | x <- unique s].

End Counting.

(** *** Two kernels

    A kernel that keeps equal values in their order of arrival, and one
    that reverses them.  Both sort; they differ on ties only. *)

Definition stable_argsort (s : seq Z) : seq nat :=
  sort (relpre (nth 0%Z s) Z.leb) (iota 0 (size s)).

Definition reversing_argsort (s : seq Z) : seq nat :=
  rev (sort (relpre (nth 0%Z s) (fun x y => Z.leb y x)) (iota 0 (size s))).

Lemma Zleb_total : total Z.leb.
Proof.
move=> x y; case: (Z.leb_spec x y) => //= H.
by apply/Z.leb_le; lia.
Qed.

Lemma stable_argsort_perm (s : seq Z) :
  perm_eq (stable_argsort s) (iota 0 (size s)).
Proof. by rewrite /stable_argsort perm_sort. Qed.

Lemma stable_argsort_sorted (s : seq Z) :
  sorted Z.leb [seq nth 0%Z s i | i <- stable_argsort s].
Proof. by rewrite /stable_argsort -sort_map; apply: (sort_sorted Zleb_total). Qed.

Lemma reversing_argsort_perm (s : seq Z) :
  perm_eq (reversing_argsort s) (iota 0 (size s)).
Proof. by rewrite /reversing_argsort perm_rev perm_sort. Qed.

Lemma reversing_argsort_sorted (s : seq Z) :
  sorted Z.leb [seq nth 0%Z s i | i <- reversing_argsort s].
Proof.
rewrite /reversing_argsort map_rev rev_sorted -sort_map.
by apply: sort_sorted => x y; apply: Zleb_total.
Qed.

Definition stable_kernel : argsort_kernel :=
  ArgsortKernel stable_argsort_perm stable_argsort_sorted.

Definition reversing_kernel : argsort_kernel :=
  ArgsortKernel reversing_argsort_perm reversing_argsort_sorted.

End Pandas.

(** ** The dashboard script *)

Module Dashboard.

Import Pandas Float64.

(** *** Constants *)

Definition CSV_PATH : string := "spotify_history.csv".
Definition DATE_COL : string := "ts".

Definition REQUIRED_COLS : seq string :=
  [:: "ts"; "artist_name"; "album_name"; "track_name"; "ms_played";
      "platform"]%string.

(** *** Frames *)

(** A row as [pd.read_csv] delivers it: [ts] is still text. *)
Record raw_row := RawRow {
  raw_ts : string;
  raw_artist_name : string;
  raw_album_name : string;
  raw_track_name : string;
  raw_ms_played : Z;
  raw_platform : string
}.

Definition raw_row_to_tuple (r : raw_row) :=
  (raw_ts r, raw_artist_name r, raw_album_name r, raw_track_name r,
   raw_ms_played r, raw_platform r).

Definition tuple_to_raw_row (t : string * string * string * string * Z * string) : raw_row :=
  let: (a, b, c, d, e, f) := t in RawRow a b c d e f.

Lemma raw_row_tupleK : cancel raw_row_to_tuple tuple_to_raw_row.
Proof. by case. Qed.

HB.instance Definition _ := Equality.copy raw_row (can_type raw_row_tupleK).

Record raw_frame := RawFrame {
  columns : seq string;
  raw_rows : seq raw_row
}.

(** A row of the frame [load_data] returns.  The [ts] column has dtype
    [datetime64[ns]], whose cells may be [NaT]. *)
Record row := Row {
  ts : option Z;
  artist_name : string;
  album_name : string;
  track_name : string;
  ms_played : Z;
  platform : string;
  playtime_s : float64
}.

Definition row_to_tuple (r : row) :=
  (ts r, artist_name r, album_name r, track_name r, ms_played r, platform r,
   playtime_s r).

Definition tuple_to_row (t : option Z * string * string * string * Z * string * float64) : row :=
  let: (a, b, c, d, e, f, g) := t in Row a b c d e f g.

Lemma row_tupleK : cancel row_to_tuple tuple_to_row.
Proof. by case. Qed.

HB.instance Definition _ := Equality.copy row (can_type row_tupleK).

(** What the file system holds at [CSV_PATH]. *)
Inductive source :=
  | NoFile
  | Unreadable (e : string)
  | Csv (df : raw_frame).

(** The messages the script shows before [st.stop()]. *)
Inductive notice :=
  | FileNotFound
  | ReadError (e : string)
  | MissingColumns (missing : seq string)
  | NoData.

(** A run of a part of the script either goes on with a value or stops. *)
Inductive run (A : Type) :=
  | Done (a : A)
  | Stop (n : notice).

Arguments Done {A} a.
Arguments Stop {A} n.

(** [pd.to_datetime(column, errors="coerce")]: a library function, taken
    as a parameter.  It returns a column of the same length whose cells
    are instants (nanoseconds since the epoch) or [NaT]. *)
Record datetime_parser := DatetimeParser {
  to_datetime :> seq string -> seq (option Z);
  size_to_datetime : forall c, size (to_datetime c) = size c
}.

(** *** [load_data] *)

(** [REQUIRED_COLS - set(df.columns)].  The script tests the difference for
    emptiness and prints it; it is kept here in the order of
    [REQUIRED_COLS]. *)
Definition missing_cols (df : raw_frame) : seq string :=
  [seq c <- REQUIRED_COLS | c \notin columns df].

(** [df["playtime_s"] = df["ms_played"] / 1000], on a row that kept its
    parsed [ts]. *)

Definition with_playtime (d : raw_row * option Z) : row :=
  let: (r, t) := d in
  Row t (raw_artist_name r) (raw_album_name r) (raw_track_name r)
      (raw_ms_played r) (raw_platform r) (int_div (raw_ms_played r) 1000).

(** The three early exits, then: parse the [ts] column, drop the rows
    whose [ts] is [NaT], add [playtime_s]. *)
Definition load_data (P : datetime_parser) (src : source) : run (seq row) :=
  match src with
  | NoFile => Stop FileNotFound
  | Unreadable e => Stop (ReadError e)
  | Csv df =>
      if missing_cols df is _ :: _ then Stop (MissingColumns (missing_cols df))
      else
        let dated := zip (raw_rows df) (P [seq raw_ts r | r <- raw_rows df]) in
        let kept := [seq d <- dated | d.2 != None] in
        Done [seq with_playtime d | d <- kept]
  end.

(** *** Sidebar filters *)

Record selection := Selection {
  artists : seq string;
  albums : seq string;
  platforms : seq string
}.

(** [sorted(df[col].unique())] *)
Definition options (col : row -> string) (df : seq row) : seq string :=
  sort StrOrd.le (unique [seq col r | r <- df]).

(** The [default=] of the three multiselects. *)
Definition default_selection (df : seq row) : selection :=
  Selection (options artist_name df) (options album_name df)
            (options platform df).

(** *** Filter *)

(** [m1 & m2] on two boolean columns. *)
Definition and_mask (m1 m2 : bitseq) : bitseq :=
  [seq p.1 && p.2 | p <- zip m1 m2].

(** [df[isin(artists) & isin(albums) & isin(platforms)]] *)
Definition filtered (df : seq row) (S : selection) : seq row :=
  mask (and_mask
          (and_mask (isin [seq artist_name r | r <- df] (artists S))
                    (isin [seq album_name r | r <- df] (albums S)))
          (isin [seq platform r | r <- df] (platforms S)))
       df.

(** The row-wise reading of the mask. *)
Definition passes (S : selection) (r : row) : bool :=
  [&& artist_name r \in artists S, album_name r \in albums S
    & platform r \in platforms S].

(** *** Metrics, tables and charts *)

(** [filtered["ms_played"].sum()], on an int64 column. *)
Definition total_ms (view : seq row) : Z :=
  Int64.sum [seq ms_played r | r <- view].

(** [total_ms / 3_600_000] *)
Definition total_h (view : seq row) : float64 :=
  int_div (total_ms view) 3600000.

(** The text of the metric: [f"{total_h:,.1f} h"]. *)
Definition metric (view : seq row) : string :=
  (format_1f (total_h view) ++ " h")%string.

(** The int64 sum of [ms_played] over the rows of one group. *)
Definition group_total (key : row -> string) (view : seq row) (k : string) : Z :=
  Int64.sum [seq ms_played r | r <- view & key r == k].

(** [view.groupby(key)["ms_played"].sum()]: one row per distinct key, in
    ascending key order. *)
Definition groupby_sum (key : row -> string) (view : seq row) : seq (string * Z) :=
  [seq (k, group_total key view k)
  | k <- sort StrOrd.le (unique [seq key r | r <- view])].

(** The ranking in milliseconds, before the division into hours. *)
Definition top10_ms (K : argsort_kernel) (key : row -> string)
    (view : seq row) : seq (string * Z) :=
  head 10 (sort_values K id false (groupby_sum key view)).

(** [groupby(key)["ms_played"].sum().sort_values(ascending=False).head(10)
    / 3_600_000] *)
Definition top10 (K : argsort_kernel) (key : row -> string)
    (view : seq row) : seq (string * float64) :=
  [seq (p.1, int_div p.2 3600000) | p <- top10_ms K key view].

Definition top_artists (K : argsort_kernel) : seq row -> seq (string * float64) :=
  top10 K artist_name.
Definition top_tracks (K : argsort_kernel) : seq row -> seq (string * float64) :=
  top10 K track_name.

(** [.dt.hour] of one cell. *)
Definition dt_hour (t : Z) : nat :=
  Z.to_nat ((t / 3600000000000) mod 24).

(** [filtered[DATE_COL].dt.hour.value_counts().sort_index()], as (hour,
    plays) rows.  [value_counts] leaves missing hours out of its count. *)
Definition hourly (K : argsort_kernel) (view : seq row) : seq (nat * nat) :=
  sort_index leq
    (value_counts K (dropna [seq omap dt_hour (ts r) | r <- view])).

(** [filtered[filtered["playtime_s"] >= 5]] *)
Definition play5 (view : seq row) : seq row :=
  [seq r <- view | SFleb (of_Z 5) (playtime_s r)].

(** [filtered["platform"].value_counts()], as (platform, count) rows. *)
Definition platform_counts (K : argsort_kernel) (view : seq row) :
    seq (string * nat) :=
  value_counts K [seq platform r | r <- view].

(** *** The page *)

Record page := Page {
  shown_metric : string;
  shown_top_artists : seq (string * float64);
  shown_top_tracks : seq (string * float64);
  shown_hourly : seq (nat * nat);
  shown_play5 : seq row;
  shown_platform_counts : seq (string * nat);
  shown_raw : seq row
}.

Definition render (K : argsort_kernel) (view : seq row) : page :=
  Page (metric view) (top_artists K view) (top_tracks K view) (hourly K view)
       (play5 view) (platform_counts K view) view.

(** One run of the script, with the two library functions it relies on.
    [pick] is the user at the sidebar: it maps the defaults offered by the
    three multiselects to the values selected. *)
Definition dashboard (P : datetime_parser) (K : argsort_kernel) (src : source)
    (pick : selection -> selection) : run page :=
  match load_data P src with
  | Stop n => Stop n
  | Done df =>
      let view := filtered df (pick (default_selection df)) in
      if view is _ :: _ then Done (render K view) else Stop NoData
  end.

(** *** Vocabulary of the statements *)

(** The cells of a row that the loader copies unchanged. *)
Definition raw_payload (r : raw_row) :=
  (raw_artist_name r, raw_album_name r, raw_track_name r, raw_ms_played r,
   raw_platform r).

Definition payload (r : row) :=
  (artist_name r, album_name r, track_name r, ms_played r, platform r).

(** The row was played during hour [h] of the day. *)
Definition at_hour (h : nat) (r : row) : bool :=
  omap dt_hour (ts r) == Some h.

(** [x] may stand before [y] in a ranking: its sum is not the smaller one. *)
Definition not_below (x y : string * Z) : bool := (y.2 <=? x.2)%Z.

(** Every cell of [ms_played] is an int64 value, as in a column that
    [pd.read_csv] typed [int64]. *)
Definition int64_cells (view : seq row) : bool :=
  all (fun r => Int64.in_range (ms_played r)) view.

(** *** Sample data *)

(** A parser for the samples: it knows three spellings and coerces every
    other cell to [NaT]. *)
Definition sample_parse (s : string) : option Z :=
  if s == "2024-01-01T10:00:00"%string then Some 1704103200000000000%Z
  else if s == "2024-01-01T10:30:00"%string then Some 1704105000000000000%Z
  else if s == "2024-01-02T23:59:59"%string then Some 1704239999000000000%Z
  else None.

Definition sample_parser : datetime_parser :=
  DatetimeParser (fun c => size_map sample_parse c).

Definition all_columns : seq string := REQUIRED_COLS.

Definition scenario_csv : raw_frame :=
  RawFrame all_columns
    [:: RawRow "2024-01-01T10:00:00" "A" "LP1" "t1" 180000 "android";
        RawRow "2024-01-01T10:30:00" "B" "LP2" "t2" 60000 "ios"].

Definition scenario_view : seq row :=
  [:: Row (Some 1704103200000000000%Z) "A" "LP1" "t1" 180000 "android"
          (int_div 180000 1000);
      Row (Some 1704105000000000000%Z) "B" "LP2" "t2" 60000 "ios"
          (int_div 60000 1000)].

(** A file with one unparseable [ts], and one with nothing else. *)
Definition dirty_csv : raw_frame :=
  RawFrame all_columns
    [:: RawRow "2024-01-01T10:00:00" "A" "LP1" "t1" 180000 "android";
        RawRow "not-a-date" "B" "LP2" "t2" 60000 "ios"].

Definition unparsable_csv : raw_frame :=
  RawFrame all_columns [:: RawRow "not-a-date" "B" "LP2" "t2" 60000 "ios"].

Definition header_only_csv : raw_frame := RawFrame all_columns [::].

Definition play (artist : string) (ms : Z) : row :=
  Row (Some 1704103200000000000%Z) artist "LP" "t" ms "android"
      (int_div ms 1000).

(** "Z" is heard before "Y", and the other way round; 120000 ms each. *)
Definition zy_view : seq row := [:: play "Z" 120000; play "Y" 120000].
Definition yz_view : seq row := [:: play "Y" 120000; play "Z" 120000].

(** Four artists in two ties. *)
Definition two_ties_view : seq row :=
  [:: play "A" 1000; play "B" 1000; play "C" 2000; play "D" 2000].

(** "Z" is heard first, "Y" second; both total 120000 ms. *)
Definition tie_view : seq row :=
  [:: play "Z" 60000; play "Y" 120000; play "Z" 60000].

(** A late-evening play on a third platform. *)
Definition late_play : row :=
  Row (Some 1704239999000000000%Z) "C" "LP3" "t3" 5000 "web"
      (int_div 5000 1000).

(** Twelve artists "A".."L" with 1000, 2000, ..., 12000 ms. *)
Definition twelve_artists : seq row :=
  [seq play (String (ascii_of_nat (65 + n)) EmptyString)
            (Z.of_nat (1000 * n.+1))
  | n <- iota 0 12].

(** Eleven artists "A".."K"; "A" and "B" have 1000 ms each, the others
    3000, 4000, ..., 11000 ms. *)
Definition tie_at_cut_view : seq row :=
  [seq play (String (ascii_of_nat (65 + n)) EmptyString)
            (if n < 2 then 1000%Z else Z.of_nat (1000 * n.+1))
  | n <- iota 0 11].

(** Two plays whose durations add up to 2^63 ms. *)
Definition overflow_view : seq row :=
  [:: play "A" 9223372036854775807; play "A" 1].

(** *** Selections compared *)

(** The values picked in both selections, facet by facet. *)
Definition inter_selection (S1 S2 : selection) : selection :=
  Selection [seq x <- artists S1 | x \in artists S2]
            [seq x <- albums S1 | x \in albums S2]
            [seq x <- platforms S1 | x \in platforms S2].

(** Every value picked in [S] is picked in [S']. *)
Definition sub_selection (S S' : selection) : bool :=
  [&& all (fun x => x \in artists S') (artists S),
      all (fun x => x \in albums S') (albums S)
    & all (fun x => x \in platforms S') (platforms S)].

End Dashboard.

(** * Properties *)

(** ** String order *)

Module StrOrdFacts.

Import StrOrd.

Lemma ascii_compare_lt_trans (a b c : ascii) :
  Ascii.compare a b = Lt -> Ascii.compare b c = Lt -> Ascii.compare a c = Lt.
Proof.
rewrite /Ascii.compare !N.compare_lt_iff; exact: N.lt_trans.
Qed.

Lemma compare_refl (s : string) : String.compare s s = Eq.
Proof.
elim: s => [|a s IH] //=.
by rewrite /Ascii.compare N.compare_refl.
Qed.

Lemma compare_lt_trans (s1 s2 s3 : string) :
  String.compare s1 s2 = Lt -> String.compare s2 s3 = Lt ->
  String.compare s1 s3 = Lt.
Proof.
elim: s1 s2 s3 => [|a s1 IH] [|b s2] [|c s3] //=.
case Eab: (Ascii.compare a b) => //; case Ebc: (Ascii.compare b c) => //.
- move/Ascii.compare_eq_iff: Eab Ebc => -> /Ascii.compare_eq_iff ->.
  rewrite /Ascii.compare N.compare_refl; exact: IH.
- by move/Ascii.compare_eq_iff: Eab Ebc => -> ->.
- by move/Ascii.compare_eq_iff: Ebc Eab => <- ->.
- by rewrite (ascii_compare_lt_trans Eab Ebc).
Qed.

Lemma le_total : total le.
Proof.
move=> s1 s2; rewrite /le /String.leb String.compare_antisym.
by case: (String.compare s2 s1).
Qed.

Lemma le_refl : reflexive le.
Proof. by move=> s; rewrite /le /String.leb compare_refl. Qed.

Lemma le_anti : antisymmetric le.
Proof. by move=> s1 s2 /andP [H1 H2]; apply: String.leb_antisym. Qed.

Lemma leE (s1 s2 : string) : le s1 s2 = (s1 == s2) || lt s1 s2.
Proof.
rewrite /le /lt /String.leb /String.ltb.
case E: (String.compare s1 s2); rewrite ?orbT ?orbF //.
- by move/String.compare_eq_iff: E => ->; rewrite eqxx.
- by case: eqP E => // ->; rewrite compare_refl.
Qed.

Lemma lt_irr : irreflexive lt.
Proof. by move=> s; rewrite /lt /String.ltb compare_refl. Qed.

Lemma lt_trans : transitive lt.
Proof.
move=> s2 s1 s3; rewrite /lt /String.ltb.
case E12: (String.compare s1 s2) => // _.
case E23: (String.compare s2 s3) => // _.
by rewrite (compare_lt_trans E12 E23).
Qed.

Lemma le_trans : transitive le.
Proof.
move=> s2 s1 s3; rewrite !leE.
case/orP => [/eqP -> //|H12]; case/orP => [/eqP <-|H23].
- by rewrite H12 orbT.
- by rewrite (lt_trans H12 H23) orbT.
Qed.

Lemma ltE (s1 s2 : string) : lt s1 s2 = (s1 != s2) && le s1 s2.
Proof.
rewrite leE; case: eqP => [->|_] /=; first by rewrite lt_irr.
by [].
Qed.

Lemma lt_sorted_uniq_le (s : seq string) :
  sorted lt s = uniq s && sorted le s.
Proof.
rewrite (sorted_pairwise lt_trans) (sorted_pairwise le_trans) uniq_pairwise.
rewrite -pairwise_relI; apply: eq_pairwise => x y /=; exact: ltE.
Qed.


End StrOrdFacts.

(** ** [int64] sums *)

Module Int64Facts.

Import Int64.

Lemma wrap_id (z : Z) : in_range z -> wrap z = z.
Proof.
rewrite /in_range /wrap /min_int /max_int => /andP [/Z.leb_le H1 /Z.leb_le H2].
rewrite Z.mod_small; lia.
Qed.

Lemma wrap_range (z : Z) : in_range (wrap z).
Proof.
rewrite /in_range /wrap /min_int /max_int.
have := Z.mod_pos_bound (z + 2 ^ 63) (2 ^ 64) => H.
by apply/andP; split; apply/Z.leb_le; lia.
Qed.

Lemma wrap_add_l (a b : Z) : wrap (wrap a + b) = wrap (a + b).
Proof.
rewrite /wrap.
have -> : ((a + 2 ^ 63) mod 2 ^ 64 - 2 ^ 63 + b + 2 ^ 63 =
           (a + 2 ^ 63) mod 2 ^ 64 + b)%Z by lia.
by rewrite Zplus_mod_idemp_l; congr (_ mod _ - _)%Z; lia.
Qed.

Lemma foldl_add (a : Z) (s : seq Z) :
  foldl add (wrap a) s = wrap (a + exact_sum s).
Proof.
elim: s a => [|x s IH] a /=; first by rewrite Z.add_0_r.
by rewrite /add wrap_add_l IH Z.add_assoc.
Qed.

Lemma sumE (s : seq Z) : sum s = wrap (exact_sum s).
Proof. by rewrite /sum -[0%Z]/(wrap 0) foldl_add. Qed.

Lemma sum_exact (s : seq Z) : in_range (exact_sum s) -> sum s = exact_sum s.
Proof. by move=> H; rewrite sumE wrap_id. Qed.

Lemma sum_range (s : seq Z) : in_range (sum s).
Proof. by rewrite sumE wrap_range. Qed.


End Int64Facts.

(** ** pandas operations *)

Module PandasFacts.

Import Pandas.

Section Series.

Variable T : eqType.

Lemma mem_unique (s : seq T) : unique s =i s.
Proof.
elim: s => [|x s IH] y //=.
rewrite !inE mem_filter IH.
by case: eqP.
Qed.

Lemma unique_uniq (s : seq T) : uniq (unique s).
Proof.
elim: s => [|x s IH] //=.
by rewrite mem_filter eqxx /= filter_uniq.
Qed.

Lemma unique_id (s : seq T) : uniq s -> unique s = s.
Proof.
elim: s => [|x s IH] //= /andP [Hx Hs].
rewrite IH //; congr cons.
apply/all_filterP/allP => y Hy.
by apply: contraNneq Hx => <-.
Qed.


End Series.

Section Tables.

Variables (I V : Type).

Lemma take_rows_nth (A : Type) (x0 : A) (s : seq A) (idx : seq nat) :
  all (fun i => i < size s) idx ->
  take_rows s idx = [seq nth x0 s i | i <- idx].
Proof.
case: s => [|y s] /=; first by case: idx.
move=> /allP Hidx; apply/eq_in_map => i Hi; apply: set_nth_default.
exact: Hidx.
Qed.

Lemma nth_map_default (A B : Type) (g : A -> B) (x0 : A) (s : seq A) (i : nat) :
  nth (g x0) [seq g x | x <- s] i = g (nth x0 s i).
Proof. by elim: s i => [|x s IH] [|i] //=. Qed.

Lemma argsort_in_range (kernel : argsort_kernel) (vals : seq Z) :
  all (fun i => i < size vals) (kernel vals).
Proof.
apply/allP => i; rewrite (perm_mem (argsort_perm kernel vals)) mem_iota.
by rewrite add0n.
Qed.

Section Ascending.

Variables (kernel : argsort_kernel) (int64_of : V -> Z).

Let ascending_by_kernel (t : seq (I * V)) : seq (I * V) :=
  take_rows t (kernel [seq int64_of p.2 | p <- t]).

Lemma size_ascending (t : seq (I * V)) : size (ascending_by_kernel t) = size t.
Proof.
rewrite /ascending_by_kernel; case: t => [|x0 t] //.
rewrite /take_rows size_map (perm_size (argsort_perm _ _)) size_iota.
by rewrite size_map.
Qed.

Lemma sorted_ascending (t : seq (I * V)) :
  sorted (relpre (fun p => int64_of p.2) Z.leb) (ascending_by_kernel t).
Proof.
rewrite /ascending_by_kernel; case: t => [|x0 t] //.
set s := x0 :: t; set vals := [seq int64_of p.2 | p <- s].
rewrite /take_rows -/s -sorted_map -map_comp.
have := argsort_sorted kernel vals.
have Hin := argsort_in_range kernel vals.
have -> : [seq nth 0%Z vals i | i <- kernel vals]
        = [seq nth (int64_of x0.2) vals i | i <- kernel vals].
  apply/eq_in_map => i Hi; apply: set_nth_default.
  exact: (allP Hin).
congr (sorted _ _); apply: eq_map => i /=.
exact: (nth_map_default (fun p : I * V => int64_of p.2)).
Qed.

End Ascending.

Lemma size_sort_values (kernel : argsort_kernel) (int64_of : V -> Z) asc
    (s : seq (I * V)) :
  size (sort_values kernel int64_of asc s) = size s.
Proof.
by case: asc; rewrite /sort_values ?size_rev size_ascending ?size_rev.
Qed.

(** Whatever the kernel does with ties, a descending sort lists the values
    in descending order. *)
Lemma sort_values_desc_sorted (kernel : argsort_kernel) (int64_of : V -> Z)
    (s : seq (I * V)) :
  sorted (fun x y => (int64_of y.2 <=? int64_of x.2)%Z)
         (sort_values kernel int64_of false s).
Proof. rewrite /sort_values rev_sorted; exact: sorted_ascending. Qed.

End Tables.

Section Counting.

Variable T : eqType.

Lemma perm_take_rows (A : eqType) (s : seq A) (idx : seq nat) :
  perm_eq idx (iota 0 (size s)) -> perm_eq (take_rows s idx) s.
Proof.
case: s => [|x0 s] Hperm; first by rewrite /take_rows.
rewrite /take_rows -[X in perm_eq _ X](mkseq_nth x0).
exact: perm_map.
Qed.

Lemma perm_sort_values (V : eqType) (kernel : argsort_kernel)
    (int64_of : V -> Z) asc (s : seq (T * V)) :
  perm_eq (sort_values kernel int64_of asc s) s.
Proof.
have Hasc (t : seq (T * V)) :
    perm_eq (take_rows t (kernel [seq int64_of p.2 | p <- t])) t.
  apply: perm_take_rows.
  by rewrite -(size_map (fun p : T * V => int64_of p.2)) argsort_perm.
case: asc; rewrite /sort_values //.
by rewrite perm_rev (perm_trans (Hasc _)) // perm_rev.
Qed.

Lemma mem_sort_values (V : eqType) (kernel : argsort_kernel)
    (int64_of : V -> Z) asc (s : seq (T * V)) :
  sort_values kernel int64_of asc s =i s.
Proof. exact/perm_mem/perm_sort_values. Qed.

Variable kernel : argsort_kernel.

Lemma perm_value_counts (s : seq T) :
  perm_eq (value_counts kernel s) [seq (x, count_mem x s) | x <- unique s].
Proof. exact: perm_sort_values. Qed.

(** Counting the occurrences of each label of a duplicate-free list. *)
Lemma sum_count_mem (u s : seq T) :
  uniq u -> \sum_(x <- u) count_mem x s = count (mem u) s.
Proof.
move=> uniq_u; elim: s => [|y s IH] /=; first by rewrite big1_seq.
rewrite big_split /= IH; congr (_ + _).
rewrite -(count_uniq_mem y uniq_u) -sum1_count [RHS]big_mkcond /=.
by apply: eq_bigr => x _; rewrite eq_sym; case: (x == y).
Qed.

Lemma sum_value_counts (s : seq T) :
  \sum_(p <- value_counts kernel s) p.2 = size s.
Proof.
rewrite (perm_big _ (perm_value_counts s)) /= big_map /=.
rewrite sum_count_mem ?unique_uniq // -(count_predT s).
by apply: eq_in_count => x Hx; rewrite /= mem_unique.
Qed.

Lemma keys_value_counts (s : seq T) :
  perm_eq [seq p.1 | p <- value_counts kernel s] (unique s).
Proof.
rewrite (perm_trans (perm_map _ (perm_value_counts s))) //.
by rewrite -map_comp map_id_in.
Qed.

End Counting.

End PandasFacts.

(** ** The filter *)

Import Pandas Float64 Dashboard.
Import StrOrdFacts Int64Facts PandasFacts.

Section Filter.

Variables (df : seq row) (S : selection).

Lemma isin_col (col : row -> string) (values : seq string) :
  isin [seq col r | r <- df] values = [seq col r \in values | r <- df].
Proof. by rewrite /isin -map_comp. Qed.

Lemma and_mask_map (A : Type) (p q : pred A) (s : seq A) :
  and_mask (map p s) (map q s) = [seq p x && q x | x <- s].
Proof. by rewrite /and_mask zip_map -map_comp. Qed.

(** The mask built from the three [isin] columns keeps the rows that pass. *)
Lemma filtered_mask : filtered df S = mask [seq passes S r | r <- df] df.
Proof.
rewrite /filtered !isin_col !and_mask_map; congr mask.
by apply: eq_map => r; rewrite /passes andbA.
Qed.

Lemma filteredE : filtered df S = [seq r <- df | passes S r].
Proof. by rewrite filtered_mask filter_mask. Qed.

End Filter.

Lemma mem_options (col : row -> string) (df : seq row) (r : row) :
  r \in df -> col r \in options col df.
Proof. by move=> Hr; rewrite /options mem_sort mem_unique map_f. Qed.

(** C4. Filtering a dataset with the full selection, the sorted distinct
    artist, album and platform values observed in it, returns the dataset
    itself: every row, in the same order. *)
Theorem filtered_full_selection (df : seq row) :
  filtered df (default_selection df) = df.
Proof.
rewrite filteredE; apply/all_filterP/allP => r Hr.
by rewrite /passes /= !mem_options.
Qed.

(** C5. A selection with an empty artists, albums or platforms list lets no
    row pass: the filtered view is empty. *)
Theorem filtered_empty_component (df : seq row) (S : selection) :
  artists S = [::] \/ albums S = [::] \/ platforms S = [::] ->
  filtered df S = [::].
Proof.
move=> H; rewrite filteredE -(filter_pred0 df).
apply: eq_filter => r; rewrite /passes.
by case: H => [->|[->|->]]; rewrite ?in_nil ?andbF.
Qed.

Lemma filtered_empty_component_witness :
  filtered scenario_view (Selection [:: "A"%string] [::] [:: "ios"%string])
  = [::].
Proof.
apply: (@filtered_empty_component scenario_view
          (Selection [:: "A"%string] [::] [:: "ios"%string])).
by right; left.
Defined.

(** C6. A row is in the filtered view exactly when it is a row of the
    dataset whose artist, album and platform each belong to the
    corresponding selection list; the view is the dataset masked by that
    test, row by row, hence a subsequence of the dataset in dataset order
    in which every passing row occurs as often as in the dataset. *)
Theorem filtered_spec (df : seq row) (S : selection) :
  [/\ forall r, (r \in filtered df S) = (r \in df) && passes S r,
      filtered df S = mask [seq passes S r | r <- df] df,
      subseq (filtered df S) df
    & forall r, count_mem r (filtered df S)
                = if passes S r then count_mem r df else 0].
Proof.
split.
- by move=> r; rewrite filteredE mem_filter andbC.
- exact: filtered_mask.
- by rewrite filteredE filter_subseq.
- move=> r; rewrite filteredE count_filter.
  case Hr: (passes S r).
  + by apply: eq_count => x /=; case: eqP => // ->; rewrite Hr.
  + rewrite -(count_pred0 df); apply: eq_count => x /=.
    by case: eqP => // ->; rewrite Hr.
Qed.

(** ** The loader *)

Section Load.

Variable P : datetime_parser.

Lemma load_data_csv (df : raw_frame) :
  missing_cols df = [::] ->
  load_data P (Csv df)
  = Done [seq with_playtime d
         | d <- zip (raw_rows df) (P [seq raw_ts r | r <- raw_rows df])
         & d.2 != None].
Proof. by rewrite /load_data => ->. Qed.

Lemma load_data_done (src : source) (D : seq row) :
  load_data P src = Done D ->
  exists df, [/\ src = Csv df, missing_cols df = [::]
    & D = [seq with_playtime d
          | d <- zip (raw_rows df) (P [seq raw_ts r | r <- raw_rows df])
          & d.2 != None]].
Proof.
case: src => [|e|df] //=.
case E: (missing_cols df) => [|c m] // [<-].
by exists df.
Qed.

Lemma size_parsed (df : raw_frame) :
  size (P [seq raw_ts r | r <- raw_rows df]) = size (raw_rows df).
Proof. by rewrite size_to_datetime size_map. Qed.

Lemma ts_with_playtime (d : raw_row * option Z) : ts (with_playtime d) = d.2.
Proof. by case: d. Qed.

Lemma payload_with_playtime (d : raw_row * option Z) :
  payload (with_playtime d) = raw_payload d.1.
Proof. by case: d. Qed.

Lemma loaded_ts_valid (src : source) (D : seq row) :
  load_data P src = Done D -> all (fun r => ts r != None) D.
Proof.
case/load_data_done => df [_ _ ->].
rewrite all_map; apply/allP => d /=.
by rewrite mem_filter ts_with_playtime => /andP [].
Qed.

End Load.

Lemma dt_hour_lt24 (t : Z) : dt_hour t < 24.
Proof.
rewrite /dt_hour; apply/ltP.
have := Z.mod_pos_bound (t / 3600000000000) 24.
lia.
Qed.

(** C7. When the file is there with its required columns, [load_data]
    returns a dataset and does not stop: the rows whose [ts] did not parse
    ([NaT]) are gone, so the dataset is shorter than the file by exactly
    their number; the other rows are kept, in file order, with their cells
    unchanged and their parsed instant; and when no [ts] parses the outcome
    is the empty dataset, still a normal return. *)
Theorem load_data_drops_unparsed (P : datetime_parser) (df : raw_frame) :
  missing_cols df = [::] ->
  let parsed := P [seq raw_ts r | r <- raw_rows df] in
  exists2 D, load_data P (Csv df) = Done D &
    [/\ size D + count (pred1 None) parsed = size (raw_rows df),
        [seq ts r | r <- D] = [seq t <- parsed | t != None],
        [seq payload r | r <- D]
        = mask [seq t != None | t <- parsed]
               [seq raw_payload r | r <- raw_rows df]
      & all (pred1 None) parsed -> D = [::]].
Proof.
move=> Hcols parsed; rewrite (load_data_csv P Hcols) -/parsed.
set rows := raw_rows df.
have Hsz : size parsed = size rows by apply: size_parsed.
have Hsnd : [seq d.2 | d <- zip rows parsed] = parsed.
  by apply: unzip2_zip; rewrite Hsz.
have Hfst : [seq d.1 | d <- zip rows parsed] = rows.
  by apply: unzip1_zip; rewrite Hsz.
eexists; first by reflexivity.
split.
- have -> : count (pred1 None) parsed
            = count (predC (fun d : raw_row * option Z => d.2 != None))
                    (zip rows parsed).
    rewrite -[in LHS]Hsnd count_map; apply: eq_count => d /=.
    by rewrite negbK.
  by rewrite size_map size_filter count_predC size_zip Hsz minnn.
- have E : ts \o with_playtime =1 snd by case.
  by rewrite -map_comp (eq_map E) -[in RHS]Hsnd filter_map.
- have E : payload \o with_playtime =1 raw_payload \o fst by case.
  rewrite -map_comp (eq_map E) filter_mask map_mask map_comp Hfst; congr mask.
  by rewrite -[in RHS]Hsnd -map_comp.
- move=> Hnone; rewrite (_ : filter _ _ = [::]) //.
  rewrite -(filter_pred0 (zip rows parsed)); apply: eq_in_filter => d Hd /=.
  have : d.2 \in parsed by rewrite -Hsnd map_f.
  by move/(allP Hnone) => /= ->.
Qed.

Lemma load_data_drops_unparsed_witness :
  exists2 D, load_data sample_parser (Csv dirty_csv) = Done D & size D = 1.
Proof.
have [] := @load_data_drops_unparsed sample_parser dirty_csv.
  by vm_compute.
move=> D HD [Hsize _ _ _]; exists D; first exact: HD.
by move: Hsize; rewrite addn1 => -[].
Defined.

Example load_scenario :
  load_data sample_parser (Csv scenario_csv) = Done scenario_view.
Proof. by vm_compute. Qed.

Example load_dirty :
  load_data sample_parser (Csv dirty_csv) = Done (take 1 scenario_view).
Proof. by vm_compute. Qed.

Example load_unparsable :
  load_data sample_parser (Csv unparsable_csv) = Done [::].
Proof. by vm_compute. Qed.

Example load_missing_column :
  load_data sample_parser
    (Csv (RawFrame [:: "ts"; "artist_name"; "ms_played"]%string [::]))
  = Stop (MissingColumns [:: "album_name"; "track_name"; "platform"]%string).
Proof. by vm_compute. Qed.

Lemma filtered_ts_valid (D : seq row) (S : selection) :
  all (fun r => ts r != None) D -> all (fun r => ts r != None) (filtered D S).
Proof.
move=> Hts; apply/allP => r; rewrite filteredE mem_filter.
by case/andP => _ /(allP Hts).
Qed.

Lemma size_hours (view : seq row) :
  all (fun r => ts r != None) view ->
  size (dropna [seq omap dt_hour (ts r) | r <- view]) = size view.
Proof.
move=> Hview; rewrite /dropna size_pmap count_map; apply/eqP.
by rewrite -all_count; apply: sub_all Hview => r /=; case: (ts r).
Qed.

(** What [load_data] returns for a table with the required columns, read
    column by column against the file and the parser's output. *)
Lemma load_data_shape (P : datetime_parser) (df : raw_frame) (D : seq row) :
  load_data P (Csv df) = Done D ->
  let parsed := P [seq raw_ts r | r <- raw_rows df] in
  [/\ [seq ts r | r <- D] = [seq t <- parsed | t != None],
      [seq payload r | r <- D]
      = mask [seq t != None | t <- parsed]
             [seq raw_payload r | r <- raw_rows df]
    & size D + count (pred1 None) parsed = size (raw_rows df)].
Proof.
move=> Hload parsed.
have [df' [[<-] _ ->]] := load_data_done Hload; rewrite -/parsed.
set rows := raw_rows df.
have Hsz : size parsed = size rows by apply: size_parsed.
have Hsnd : [seq d.2 | d <- zip rows parsed] = parsed.
  by apply: unzip2_zip; rewrite Hsz.
have Hfst : [seq d.1 | d <- zip rows parsed] = rows.
  by apply: unzip1_zip; rewrite Hsz.
split.
- have E : ts \o with_playtime =1 snd by case.
  by rewrite -map_comp (eq_map E) -[in RHS]Hsnd filter_map.
- have E : payload \o with_playtime =1 raw_payload \o fst by case.
  rewrite -map_comp (eq_map E) filter_mask map_mask map_comp Hfst; congr mask.
  by rewrite -[in RHS]Hsnd -map_comp.
- have -> : count (pred1 None) parsed
            = count (predC (fun d : raw_row * option Z => d.2 != None))
                    (zip rows parsed).
    rewrite -[in LHS]Hsnd count_map; apply: eq_count => d /=.
    by rewrite negbK.
  by rewrite size_map size_filter count_predC size_zip Hsz minnn.
Qed.

(** C9. A dataset returned by [load_data] comes from a table of the file;
    its [ts] column is the parser's output for the file's [ts] column with
    the [NaT] cells dropped, each kept row keeping its own cells, so the
    dataset is shorter than the file by the number of [NaT] cells and
    every row carries an instant the parser produced.  [playtime_s] is
    computed after the drop from the row's own [ms_played].  Hence in
    every filtered view the hour of day is defined for each row, is the
    hour of that instant, lies in 0..23, and the hour column has as many
    cells as the view has rows. *)
Theorem loaded_hours_total (P : datetime_parser) (src : source)
    (D : seq row) (S : selection) :
  load_data P src = Done D ->
  let view := filtered D S in
  exists2 df, src = Csv df &
    let parsed := P [seq raw_ts r | r <- raw_rows df] in
    [/\ [seq ts r | r <- D] = [seq t <- parsed | t != None] /\
        [seq payload r | r <- D]
        = mask [seq t != None | t <- parsed]
               [seq raw_payload r | r <- raw_rows df],
        size D + count (pred1 None) parsed = size (raw_rows df) /\
        all (fun r => ts r != None) D,
        all (fun r => playtime_s r == int_div (ms_played r) 1000) D,
        forall r, r \in view ->
          exists t, [/\ ts r = Some t, Some t \in parsed,
                        omap dt_hour (ts r) = Some (dt_hour t)
                      & dt_hour t < 24]
      & size (dropna [seq omap dt_hour (ts r) | r <- view]) = size view].
Proof.
move=> Hload view.
have [df [Hsrc _ HD]] := load_data_done Hload.
exists df => // parsed.
have Hts := loaded_ts_valid Hload.
have Hview : all (fun r => ts r != None) view by apply: filtered_ts_valid.
move: (Hload); rewrite Hsrc => /load_data_shape; rewrite -/parsed.
case=> Hcol Hpay Hsize.
split=> //.
- by rewrite HD all_map; apply/allP => -[r t] _ /=.
- move=> r Hr.
  have HrD : r \in D by move: Hr; rewrite /view filteredE mem_filter => /andP [].
  have : ts r \in [seq ts r | r <- D] by apply: map_f.
  rewrite Hcol mem_filter => /andP [_].
  move/(allP Hts): HrD; case: (ts r) => [t|] // _ Hin.
  by exists t; split=> //; apply: dt_hour_lt24.
- exact: size_hours.
Qed.

Lemma loaded_hours_total_witness :
  [seq ts r | r <- take 1 scenario_view]
  = [seq t <- sample_parser [seq raw_ts r | r <- raw_rows dirty_csv]
    | t != None] /\
  size (take 1 scenario_view)
  + count (pred1 None) (sample_parser [seq raw_ts r | r <- raw_rows dirty_csv])
  = size (raw_rows dirty_csv).
Proof.
have [] := @loaded_hours_total sample_parser (Csv dirty_csv)
             (take 1 scenario_view) (default_selection (take 1 scenario_view)).
  by vm_compute.
by move=> df [<-] [[Hts _] [Hsize _] _ _ _].
Defined.

(** ** The hourly histogram *)

Section Histogram.

Variable K : argsort_kernel.

Lemma count_mem_dropna (T : eqType) (s : seq (option T)) (x : T) :
  count_mem x (dropna s) = count_mem (Some x) s.
Proof. by elim: s => [|[y|] s IH] //=; rewrite IH. Qed.

Lemma mem_dropna (T : eqType) (s : seq (option T)) (x : T) :
  (x \in dropna s) = (Some x \in s).
Proof. by rewrite /dropna mem_pmap map_id. Qed.

(** [value_counts().sort_index()] on a column of naturals below [n]: the
    ascending run of the values that occur, each with its count. *)
Lemma sort_index_value_counts (n : nat) (s : seq nat) :
  all (fun h => h < n) s ->
  sort_index leq (value_counts K s)
  = [seq (h, count_mem h s) | h <- iota 0 n & h \in s].
Proof.
move=> Hs.
have tr : transitive (relpre (@fst nat nat) ltn).
  by move=> y x z /=; apply: ltn_trans.
have irr : irreflexive (relpre (@fst nat nat) ltn).
  by move=> x /=; rewrite ltnn.
apply: (irr_sorted_eq tr irr).
- rewrite -sorted_map ltn_sorted_uniq_leq /sort_index -sort_map.
  rewrite sort_uniq (perm_uniq (keys_value_counts K s)) unique_uniq /=.
  exact: (sort_sorted leq_total).
- rewrite -sorted_map -map_comp map_id_in //.
  exact: (sorted_filter ltn_trans _ (iota_ltn_sorted 0 n)).
- move=> p; rewrite mem_sort mem_sort_values.
  apply/mapP/mapP => -[h Hh ->]; exists h => //.
  + rewrite mem_unique in Hh.
    by rewrite mem_filter Hh mem_iota /= add0n (allP Hs).
  + by move: Hh; rewrite mem_filter mem_unique => /andP [].
Qed.

Variable view : seq row.

Let hours : seq nat := dropna [seq omap dt_hour (ts r) | r <- view].

Lemma hours_lt24 : all (fun h => h < 24) hours.
Proof.
apply/allP => h; rewrite mem_dropna => /mapP [r _].
by case: (ts r) => [t|] // [->]; apply: dt_hour_lt24.
Qed.

Lemma count_hours (h : nat) : count_mem h hours = count (at_hour h) view.
Proof.
rewrite count_mem_dropna count_map; apply: eq_count => r /=.
by rewrite /at_hour eq_sym.
Qed.

Lemma mem_hours (h : nat) : (h \in hours) = has (at_hour h) view.
Proof. by rewrite -has_pred1 has_count count_hours -has_count. Qed.

(** The histogram is the dense 24-hour histogram with its empty hours
    left out. *)
Lemma hourlyE :
  hourly K view
  = [seq (h, count (at_hour h) view) | h <- iota 0 24 & has (at_hour h) view].
Proof.
rewrite /hourly (sort_index_value_counts hours_lt24).
rewrite (eq_filter mem_hours); apply: eq_map => h.
by rewrite count_hours.
Qed.

Lemma hourly_keys :
  [seq p.1 | p <- hourly K view] = [seq h <- iota 0 24 | has (at_hour h) view].
Proof. by rewrite hourlyE -map_comp map_id_in. Qed.

Lemma sum_hourly : \sum_(p <- hourly K view) p.2 = size hours.
Proof.
rewrite -(sum_value_counts K hours); apply: perm_big.
by rewrite /hourly /sort_index perm_sort.
Qed.

End Histogram.

(** C1 (amended). For every filtered view of a loaded dataset, the hourly
    histogram has one entry per hour of day that occurs in the view, and
    none for the others: it is the 24-hour histogram with its empty hours
    left out.  Its hours are in strictly ascending order and lie in 0..23,
    every count is positive, there are at most 24 entries, and the counts
    add up to the number of rows of the view. *)
Theorem hourly_sparse (P : datetime_parser) (K : argsort_kernel)
    (src : source) (D : seq row) (S : selection) :
  load_data P src = Done D ->
  let view := filtered D S in
  [/\ hourly K view
      = [seq (h, count (at_hour h) view)
        | h <- iota 0 24 & has (at_hour h) view],
      sorted ltn [seq p.1 | p <- hourly K view],
      all (fun p => (p.1 < 24) && (0 < p.2)) (hourly K view),
      size (hourly K view) <= 24
    & \sum_(p <- hourly K view) p.2 = size view].
Proof.
move=> Hload view; split.
- exact: hourlyE.
- rewrite hourly_keys.
  exact: (sorted_filter ltn_trans _ (iota_ltn_sorted 0 24)).
- rewrite hourlyE; apply/allP => p /mapP [h].
  rewrite mem_filter mem_iota add0n /= => /andP [Hhas Hh] -> /=.
  by rewrite Hh -has_count.
- by rewrite -(size_map fst) hourly_keys size_filter (leq_trans (count_size _ _)) ?size_iota.
- rewrite sum_hourly size_hours //.
  exact/filtered_ts_valid/(loaded_ts_valid Hload).
Qed.

Lemma hourly_sparse_witness :
  \sum_(p <- hourly stable_kernel
               (filtered scenario_view (default_selection scenario_view)))
    p.2 = 2.
Proof.
have [] := @hourly_sparse sample_parser stable_kernel (Csv scenario_csv)
             scenario_view (default_selection scenario_view).
  by vm_compute.
by move=> _ _ _ _ ->; vm_compute.
Defined.

(** C1 as stated fails: two plays at 10 o'clock give a histogram with the
    single entry for hour 10, not 24 entries with 23 zero counts, whatever
    the sorting kernel. *)
Lemma hourly_dense_counterexample :
  let view := filtered scenario_view (default_selection scenario_view) in
  hourly stable_kernel view = [:: (10, 2)] /\
  ~ (exists K : argsort_kernel,
       size (hourly K view) = 24 /\
       [seq p.1 | p <- hourly K view] = iota 0 24).
Proof.
split; first by vm_compute.
by case=> K []; rewrite hourlyE.
Qed.

(** ** The Top-10 rankings *)

Section Ranking.

Variables (K : argsort_kernel) (key : row -> string) (view : seq row).

Lemma groupby_sum_keys :
  [seq p.1 | p <- groupby_sum key view]
  = sort StrOrd.le (unique [seq key r | r <- view]).
Proof. by rewrite /groupby_sum -map_comp map_id_in. Qed.

Lemma groupby_sum_sorted :
  sorted (relpre fst StrOrd.lt) (groupby_sum key view).
Proof.
rewrite -sorted_map groupby_sum_keys lt_sorted_uniq_le sort_uniq unique_uniq.
exact: (sort_sorted le_total).
Qed.

Lemma perm_groupby_sum :
  perm_eq (groupby_sum key view)
          [seq (k, group_total key view k) | k <- unique [seq key r | r <- view]].
Proof. by apply: perm_map; rewrite perm_sort. Qed.

Lemma ranking_sorted :
  sorted not_below (sort_values K id false (groupby_sum key view)).
Proof. exact: sort_values_desc_sorted. Qed.

End Ranking.

(** C2 (amended). The Top-10 ranking of a view by artist (or by track)
    comes from the table with one row per distinct name and the int64 sum
    of [ms_played] of the rows with that name: the ranking is the first 10
    rows of that table sorted by descending sum, for any sorting kernel.
    Nothing is promised about the order of rows with equal sums.  The
    hours table lists the same names in the same order. *)
Theorem top10_ranking (K : argsort_kernel) (key : row -> string)
    (view : seq row) :
  let groups :=
    [seq (k, group_total key view k) | k <- unique [seq key r | r <- view]] in
  let top := top10_ms K key view in
  [/\ exists rest, perm_eq (top ++ rest) groups /\
                   sorted not_below (top ++ rest),
      size top = minn 10 (size groups),
      uniq [seq p.1 | p <- top]
    & top10 K key view = [seq (p.1, int_div p.2 3600000) | p <- top]].
Proof.
move=> groups top.
set ranked := sort_values K id false (groupby_sum key view).
have Hperm : perm_eq ranked groups.
  exact: (perm_trans (perm_sort_values _ _ _ _) (perm_groupby_sum key view)).
split=> //.
- exists (drop 10 ranked); rewrite /top /top10_ms /head cat_take_drop.
  by split=> //; apply: ranking_sorted.
- by rewrite /top /top10_ms /head size_take_min (perm_size Hperm).
- rewrite /top /top10_ms /head map_take take_uniq //.
  rewrite (perm_uniq (perm_map _ Hperm)) -map_comp map_id_in //.
  exact: unique_uniq.
Qed.

(** C2 as stated fails.  In [zy_view] "Z" first appears before "Y", in
    [yz_view] "Y" before "Z", and in both the two artists total 120000 ms
    each; the claim wants "Z" before "Y" in the first ranking and "Y"
    before "Z" in the second.  No sorting kernel does both: the table that
    is sorted lists the groups by name and is the same for the two views.
    The kernel that keeps ties in place puts "Y" first for both. *)
Lemma top_artists_tie_counterexample :
  [/\ index "Z"%string [seq artist_name r | r <- zy_view]
      < index "Y"%string [seq artist_name r | r <- zy_view],
      index "Y"%string [seq artist_name r | r <- yz_view]
      < index "Z"%string [seq artist_name r | r <- yz_view],
      groupby_sum artist_name zy_view
      = [:: ("Y"%string, 120000%Z); ("Z"%string, 120000%Z)] /\
      groupby_sum artist_name yz_view
      = [:: ("Y"%string, 120000%Z); ("Z"%string, 120000%Z)],
      [seq p.1 | p <- top_artists stable_kernel zy_view]
      = [:: "Y"; "Z"]%string
    & ~ (exists K : argsort_kernel,
           index "Z"%string [seq p.1 | p <- top_artists K zy_view]
           < index "Y"%string [seq p.1 | p <- top_artists K zy_view] /\
           index "Y"%string [seq p.1 | p <- top_artists K yz_view]
           < index "Z"%string [seq p.1 | p <- top_artists K yz_view])].
Proof.
have Hsame : groupby_sum artist_name zy_view = groupby_sum artist_name yz_view.
  by vm_compute.
split.
- by vm_compute.
- by vm_compute.
- by split; vm_compute.
- by vm_compute.
- case=> K; rewrite /top_artists /top10 /top10_ms Hsame => -[H1 H2].
  by move: H1; rewrite ltnNge (ltnW H2).
Qed.

(** The order of tied groups is the kernel's: four artists in two ties,
    ranked with a kernel that keeps ties in place and with one that
    reverses them. *)
Example ranking_ties_depend_on_kernel :
  [seq p.1 | p <- top_artists stable_kernel two_ties_view]
  = [:: "C"; "D"; "A"; "B"]%string /\
  [seq p.1 | p <- top_artists reversing_kernel two_ties_view]
  = [:: "D"; "C"; "B"; "A"]%string.
Proof. by split; vm_compute. Qed.

(** So is the group that is cut at a tie for the tenth place. *)
Example cut_at_tie_depends_on_kernel :
  [seq p.1 | p <- drop 9 (top_artists stable_kernel tie_at_cut_view)]
  = [:: "A"%string] /\
  [seq p.1 | p <- drop 9 (top_artists reversing_kernel tie_at_cut_view)]
  = [:: "B"%string].
Proof. by split; vm_compute. Qed.

(** ** Platform counts *)

(** C10. The platform counts partition the view: the platforms listed are
    pairwise distinct, every row's platform is listed with the number of
    rows of the view on that platform, and the counts add up to the number
    of rows of the view. *)
Theorem platform_counts_partition (K : argsort_kernel) (view : seq row) :
  let on_platform p := count (fun r => platform r == p) view in
  [/\ uniq [seq p.1 | p <- platform_counts K view],
      forall r, r \in view ->
        (platform r, on_platform (platform r)) \in platform_counts K view,
      forall p, p \in platform_counts K view ->
        p.2 = on_platform p.1 /\ 0 < p.2
    & \sum_(p <- platform_counts K view) p.2 = size view].
Proof.
move=> on_platform.
have HcountE p : count_mem p [seq platform r | r <- view] = on_platform p.
  by rewrite count_map; apply: eq_count => r.
split.
- by rewrite (perm_uniq (keys_value_counts _ _)) unique_uniq.
- move=> r Hr; rewrite mem_sort_values -HcountE.
  by apply/mapP; exists (platform r) => //; rewrite mem_unique map_f.
- move=> p; rewrite mem_sort_values => /mapP [x Hx ->] /=.
  rewrite HcountE; split=> //.
  by rewrite -HcountE -has_count has_pred1 -(mem_unique _ x).
- by rewrite sum_value_counts size_map.
Qed.

(** ** Total listening time *)

(** C8 (amended). For every view whose [ms_played] values add up to a
    number within the int64 range, the total is that exact integer sum,
    the hours shown are the double quotient of that sum by 3,600,000, and
    the metric text is that quotient printed with one decimal. *)
Theorem total_playtime (view : seq row) :
  let total := Int64.exact_sum [seq ms_played r | r <- view] in
  Int64.in_range total ->
  [/\ total_ms view = total,
      total_h view = div (of_Z total) (of_Z 3600000)
    & metric view = (format_1f (div (of_Z total) (of_Z 3600000)) ++ " h")%string].
Proof.
move=> total Hrange.
have Hms : total_ms view = total by rewrite /total_ms sum_exact.
by rewrite /metric /total_h Hms.
Qed.

(** The scenario of the two plays of 180000 ms and 60000 ms: 240000 ms,
    the double nearest to 1/15, 0.0667 to four decimals, shown as 0.1 h. *)
Lemma total_playtime_witness :
  [/\ total_ms scenario_view = 240000%Z,
      total_h scenario_view = S754_finite false 4803839602528529 (-56),
      round_scaled 4 (total_h scenario_view) = 667%Z
    & metric scenario_view = "0.1 h"%string].
Proof.
have [] := @total_playtime scenario_view; first by vm_compute.
by move=> -> -> ->; split; vm_compute.
Defined.

(** C8 as stated fails where the int64 accumulator wraps. *)
Lemma total_playtime_counterexample :
  [/\ Int64.exact_sum [seq ms_played r | r <- overflow_view]
      = 9223372036854775808%Z,
      total_ms overflow_view = (-9223372036854775808)%Z
    & total_h overflow_view
      <> int_div (Int64.exact_sum [seq ms_played r | r <- overflow_view])
                 3600000].
Proof. by split; vm_compute. Qed.

(** ** The empty view *)

(** C3 (amended). When the filtered view is empty the script shows the
    "no data" warning and stops: no metric, table or chart is computed.
    The expressions themselves are defined on an empty view: the total is
    0 ms, shown as 0.0 h, and every table, the hourly histogram included,
    is empty. *)
Theorem empty_view_stops (P : datetime_parser) (K : argsort_kernel)
    (src : source) (pick : selection -> selection) (D : seq row) :
  load_data P src = Done D ->
  filtered D (pick (default_selection D)) = [::] ->
  [/\ dashboard P K src pick = Stop NoData,
      total_ms [::] = 0%Z /\ metric [::] = "0.0 h"%string,
      top_artists K [::] = [::] /\ top_tracks K [::] = [::],
      hourly K [::] = [::]
    & platform_counts K [::] = [::]].
Proof.
move=> Hload Hempty; split.
- by rewrite /dashboard Hload Hempty.
- by vm_compute.
- by [].
- by [].
- by [].
Qed.

Lemma empty_view_stops_witness :
  dashboard sample_parser stable_kernel (Csv header_only_csv) id = Stop NoData.
Proof.
have [] := @empty_view_stops sample_parser stable_kernel
             (Csv header_only_csv) id [::].
- by vm_compute.
- by vm_compute.
- by [].
Defined.

(** C3 as stated fails: on a file with a header only, the run ends in the
    warning instead of a page, and the histogram expression gives no
    entry, not 24 zero entries. *)
Lemma empty_view_counterexample :
  ~ (exists K pg,
       dashboard sample_parser K (Csv header_only_csv) id = Done pg) /\
  ~ (exists K,
       size (hourly K (filtered [::] (default_selection [::]))) = 24).
Proof. by split; [case=> K [] | case]. Qed.

(** ** Worked examples *)

Example unique_first_appearance : unique [:: 3; 1; 3; 2; 1] = [:: 3; 1; 2].
Proof. by []. Qed.

Example value_counts_most_frequent_first :
  value_counts stable_kernel [:: 3; 1; 3; 2; 1; 3]
  = [:: (3, 3); (1, 2); (2, 1)] /\
  value_counts reversing_kernel [:: 3; 1; 3; 2; 1; 3]
  = [:: (3, 3); (1, 2); (2, 1)].
Proof. by vm_compute. Qed.

Example int64_sum_wraps : Int64.sum [:: Int64.max_int; 1%Z] = Int64.min_int.
Proof. by vm_compute. Qed.

Example format_ties_to_even :
  format_1f (int_div 900000 3600000) = "0.2"%string.
Proof. by vm_compute. Qed.

Example format_inexact_binary :
  format_1f (int_div 1260000 3600000) = "0.3"%string.
Proof. by vm_compute. Qed.

Example format_thousands :
  format_1f (int_div 4444444444444 3600000) = "1,234,567.9"%string.
Proof. by vm_compute. Qed.

Example metric_after_overflow :
  metric overflow_view = "-2,562,047,788,015.2 h"%string.
Proof. by vm_compute. Qed.

Example options_are_sorted :
  options artist_name tie_view = [:: "Y"; "Z"]%string.
Proof. by vm_compute. Qed.

Example narrowed_selection :
  filtered scenario_view
    (Selection [:: "A"%string] [:: "LP1"; "LP2"]%string
               [:: "android"; "ios"]%string)
  = take 1 scenario_view.
Proof. by vm_compute. Qed.

Example hourly_two_hours :
  hourly stable_kernel (late_play :: scenario_view) = [:: (10, 2); (23, 1)].
Proof. by vm_compute. Qed.

Example platform_counts_three :
  platform_counts stable_kernel
    (play "q" 1 :: late_play :: scenario_view ++ [:: late_play; late_play])
  = [:: ("web", 3); ("android", 2); ("ios", 1)]%string.
Proof. by vm_compute. Qed.

Example play5_threshold :
  play5 [:: play "q" 4999; play "r" 5000] = [:: play "r" 5000].
Proof. by vm_compute. Qed.

Example top10_truncates :
  [seq p.1 | p <- top10_ms stable_kernel artist_name twelve_artists]
  = [:: "L"; "K"; "J"; "I"; "H"; "G"; "F"; "E"; "D"; "C"]%string.
Proof. by vm_compute. Qed.

(** The scenario of the two plays, end to end: "A" leads the ranking and
    both plays fall in hour 10. *)
Example scenario_page :
  exists2 pg,
    dashboard sample_parser stable_kernel (Csv scenario_csv) id = Done pg &
    [/\ shown_metric pg = "0.1 h"%string,
        [seq p.1 | p <- shown_top_artists pg] = [:: "A"; "B"]%string,
        shown_hourly pg = [:: (10, 2)]
      & shown_raw pg = scenario_view].
Proof. by exists (render stable_kernel scenario_view); [|split]; vm_compute. Qed.

(** * Further properties of the script *)

(** ** Outcomes of the loader *)

Lemma missing_cols_nil (df : raw_frame) :
  (missing_cols df == [::]) = all (fun c => c \in columns df) REQUIRED_COLS.
Proof.
rewrite /missing_cols -[_ == _]negbK -has_filter -all_predC.
by apply: eq_all => c /=; rewrite negbK.
Qed.

Lemma mem_missing_cols (df : raw_frame) (c : string) :
  (c \in missing_cols df) = (c \in REQUIRED_COLS) && (c \notin columns df).
Proof. by rewrite mem_filter andbC. Qed.

Lemma load_data_stop (P : datetime_parser) (src : source) (n : notice) :
  load_data P src = Stop n ->
  match n with
  | FileNotFound => src = NoFile
  | ReadError e => src = Unreadable e
  | MissingColumns m =>
      exists df, [/\ src = Csv df, m = missing_cols df & m != [::]]
  | NoData => False
  end.
Proof.
case: src => [|e|df] /=; try by case=> <-.
case E: (missing_cols df) => [|c m] //= [<-].
by exists df; rewrite E.
Qed.

(** X1. [load_data] returns a dataset exactly when the file is there, parses
    as a table and has the six required columns among its columns; columns
    beyond those do no harm. *)
Theorem load_data_succeeds_iff (P : datetime_parser) (src : source) :
  (exists D, load_data P src = Done D)
  <-> (exists2 df, src = Csv df
         & all (fun c => c \in columns df) REQUIRED_COLS).
Proof.
split.
- case=> D /load_data_done [df [-> Hm _]]; exists df => //.
  by rewrite -missing_cols_nil Hm.
- case=> df -> Hall; move: Hall; rewrite -missing_cols_nil => /eqP Hm.
  by eexists; rewrite (load_data_csv P Hm).
Qed.

(** X2. When [load_data] stops, the notice tells why: "file not found" only
    for a missing file, "error reading CSV" only for an unreadable one with
    that error, and "missing required columns" only for a table, listing
    exactly the required columns the table lacks, at least one.  The
    loader never reports "no data". *)
Theorem load_data_stop_cause (P : datetime_parser) (src : source)
    (n : notice) :
  load_data P src = Stop n ->
  match n with
  | FileNotFound => src = NoFile
  | ReadError e => src = Unreadable e
  | MissingColumns m =>
      exists df,
        [/\ src = Csv df, m != [::]
          & forall c, (c \in m)
                      = (c \in REQUIRED_COLS) && (c \notin columns df)]
  | NoData => False
  end.
Proof.
move/load_data_stop; case: n => // m [df [-> -> Hm]].
by exists df; split=> // c; rewrite mem_missing_cols.
Qed.

Lemma load_data_stop_cause_witness :
  exists df,
    [/\ Csv (RawFrame [:: "ts"; "platform"]%string [::]) = Csv df,
        [:: "artist_name"; "album_name"; "track_name"; "ms_played"]%string
        != [::]
      & forall c,
          (c \in [:: "artist_name"; "album_name"; "track_name";
                     "ms_played"]%string)
          = (c \in REQUIRED_COLS) && (c \notin columns df)].
Proof.
apply: (@load_data_stop_cause sample_parser
          (Csv (RawFrame [:: "ts"; "platform"]%string [::]))
          (MissingColumns [:: "artist_name"; "album_name"; "track_name";
                              "ms_played"]%string)).
by vm_compute.
Defined.

(** ** The options of the multiselects *)

Lemma options_sorted (col : row -> string) (df : seq row) :
  sorted StrOrd.lt (options col df).
Proof.
rewrite lt_sorted_uniq_le /options sort_uniq unique_uniq.
exact: (sort_sorted le_total).
Qed.

Lemma mem_options_col (col : row -> string) (df : seq row) :
  options col df =i [seq col r | r <- df].
Proof. by move=> x; rewrite /options mem_sort mem_unique. Qed.

Lemma eq_options (col : row -> string) (df df' : seq row) :
  [seq col r | r <- df] =i [seq col r | r <- df'] ->
  options col df = options col df'.
Proof.
move=> Hmem; apply: (irr_sorted_eq lt_trans lt_irr); try exact: options_sorted.
by move=> x; rewrite !mem_options_col.
Qed.

(** X3. The options offered by a multiselect are the values of the column,
    each once, in strictly ascending order. *)
Theorem options_sorted_distinct (col : row -> string) (df : seq row) :
  [/\ sorted StrOrd.lt (options col df),
      uniq (options col df)
    & options col df =i [seq col r | r <- df]].
Proof.
split; [exact: options_sorted | | exact: mem_options_col].
by rewrite /options sort_uniq unique_uniq.
Qed.

(** X4. The default selection depends only on which values occur in the
    three columns, not on the order or number of the rows that carry
    them. *)
Theorem default_selection_values (df df' : seq row) :
  [seq artist_name r | r <- df] =i [seq artist_name r | r <- df'] ->
  [seq album_name r | r <- df] =i [seq album_name r | r <- df'] ->
  [seq platform r | r <- df] =i [seq platform r | r <- df'] ->
  default_selection df = default_selection df'.
Proof.
move=> Ha Hb Hp; rewrite /default_selection.
by rewrite (eq_options Ha) (eq_options Hb) (eq_options Hp).
Qed.

(** The two plays of the scenario against four rows: the same plays in
    reverse order followed by themselves. *)
Lemma default_selection_values_witness :
  default_selection scenario_view
  = default_selection (rev scenario_view ++ scenario_view).
Proof.
apply: (@default_selection_values scenario_view
          (rev scenario_view ++ scenario_view));
  by move=> x; rewrite map_cat map_rev mem_cat mem_rev orbb.
Defined.

(** ** More on the filter *)

Lemma filtered_default (df : seq row) : filtered df (default_selection df) = df.
Proof.
rewrite filteredE; apply/all_filterP/allP => r Hr.
by rewrite /passes /= !mem_options.
Qed.

Lemma passes_inter (S1 S2 : selection) (r : row) :
  passes (inter_selection S1 S2) r = passes S1 r && passes S2 r.
Proof.
rewrite /passes /= !mem_filter.
case: (artist_name r \in artists S1); case: (artist_name r \in artists S2);
case: (album_name r \in albums S1); case: (album_name r \in albums S2);
by case: (platform r \in platforms S1); case: (platform r \in platforms S2).
Qed.

Lemma passes_sub (S S' : selection) (r : row) :
  sub_selection S S' -> passes S r -> passes S' r.
Proof.
case/and3P => /allP Ha /allP Hb /allP Hp /and3P [Hra Hrb Hrp].
by rewrite /passes (Ha _ Hra) (Hb _ Hrb) (Hp _ Hrp).
Qed.

(** X5. The view depends on the selection only through which values are
    picked: the order of the picks and repeated picks change nothing. *)
Theorem filtered_same_picks (df : seq row) (S S' : selection) :
  artists S =i artists S' -> albums S =i albums S' ->
  platforms S =i platforms S' ->
  filtered df S = filtered df S'.
Proof.
move=> Ha Hb Hp; rewrite !filteredE; apply: eq_filter => r.
by rewrite /passes Ha Hb Hp.
Qed.

Lemma filtered_same_picks_witness :
  filtered scenario_view
    (Selection [:: "B"; "A"; "B"]%string [:: "LP2"; "LP1"]%string
               [:: "ios"; "android"]%string)
  = filtered scenario_view (default_selection scenario_view).
Proof.
apply: filtered_same_picks => x; rewrite /= mem_options_col /= !inE.
- by case: (x == "A"%string); case: (x == "B"%string).
- by case: (x == "LP1"%string); case: (x == "LP2"%string).
- by case: (x == "ios"%string); case: (x == "android"%string).
Defined.

(** X6. Filtering a view again is filtering the dataset once with the
    values picked both times; so the two filters can be applied in either
    order, and filtering twice with the same selection changes nothing. *)
Theorem filtered_twice (df : seq row) (S1 S2 : selection) :
  [/\ filtered (filtered df S1) S2 = filtered df (inter_selection S1 S2),
      filtered (filtered df S1) S2 = filtered (filtered df S2) S1
    & filtered (filtered df S1) S1 = filtered df S1].
Proof.
have Hcomp T1 T2 :
    filtered (filtered df T1) T2 = [seq r <- df | passes T1 r && passes T2 r].
  by rewrite !filteredE -filter_predI; apply: eq_filter => r /=; rewrite andbC.
split.
- by rewrite Hcomp filteredE; apply: eq_filter => r; rewrite passes_inter.
- by rewrite !Hcomp; apply: eq_filter => r; rewrite andbC.
- by rewrite Hcomp filteredE; apply: eq_filter => r; rewrite andbb.
Qed.

(** X7. Picking fewer values never adds rows: if every value picked in [S]
    is picked in [S'], the view under [S] is a subsequence of the view
    under [S']. *)
Theorem filtered_monotone (df : seq row) (S S' : selection) :
  sub_selection S S' -> subseq (filtered df S) (filtered df S').
Proof.
move=> Hsub.
have -> : filtered df S = [seq r <- filtered df S' | passes S r].
  rewrite !filteredE -filter_predI; apply: eq_filter => r /=.
  by case H: (passes S r); rewrite ?(passes_sub Hsub H).
exact: filter_subseq.
Qed.

Lemma filtered_monotone_witness :
  subseq (filtered scenario_view
            (Selection [:: "A"%string] [:: "LP1"%string] [:: "android"%string]))
         (filtered scenario_view (default_selection scenario_view)).
Proof. by apply: filtered_monotone; vm_compute. Defined.

(** X8. Values picked that do not occur in the dataset have no effect: the
    view is the one for the picks that are among the options. *)
Theorem filtered_known_picks (df : seq row) (S : selection) :
  filtered df S = filtered df (inter_selection S (default_selection df)).
Proof.
rewrite !filteredE; apply: eq_in_filter => r Hr.
rewrite passes_inter.
have -> : passes (default_selection df) r by rewrite /passes /= !mem_options.
by rewrite andbT.
Qed.

(** X9. A facet left at its default does not constrain the view: with two
    facets at their defaults, the rows kept are those whose value for the
    third facet is picked. *)
Theorem filtered_one_facet (df : seq row) (picks : seq string) :
  [/\ filtered df (Selection picks (options album_name df)
                             (options platform df))
      = [seq r <- df | artist_name r \in picks],
      filtered df (Selection (options artist_name df) picks
                             (options platform df))
      = [seq r <- df | album_name r \in picks]
    & filtered df (Selection (options artist_name df)
                             (options album_name df) picks)
      = [seq r <- df | platform r \in picks]].
Proof.
by split; rewrite filteredE; apply: eq_in_filter => r Hr;
   rewrite /passes /= !mem_options ?andbT.
Qed.

(** ** What a run of the script shows *)

Lemma size_top10 (K : argsort_kernel) (key : row -> string) (view : seq row) :
  size (top10 K key view) = minn 10 (size (unique [seq key r | r <- view])).
Proof.
rewrite /top10 /top10_ms /head size_map size_take_min size_sort_values.
by rewrite /groupby_sum size_map size_sort.
Qed.

Lemma top10_bounds (K : argsort_kernel) (key : row -> string)
    (view : seq row) :
  view != [::] -> 0 < size (top10 K key view) <= 10.
Proof.
case: view => [|r view] // _.
by rewrite size_top10 geq_minl andbT leq_min.
Qed.

Lemma sum_platform_counts (K : argsort_kernel) (view : seq row) :
  \sum_(p <- platform_counts K view) p.2 = size view.
Proof. by rewrite /platform_counts sum_value_counts size_map. Qed.

Lemma dashboard_done (P : datetime_parser) (K : argsort_kernel)
    (src : source) (pick : selection -> selection) (pg : page) :
  dashboard P K src pick = Done pg ->
  exists2 D, load_data P src = Done D &
    filtered D (pick (default_selection D)) != [::] /\
    pg = render K (filtered D (pick (default_selection D))).
Proof.
rewrite /dashboard; case E: (load_data P src) => [D|n] //.
case Ev: (filtered D _) => [|r view] // [<-].
by exists D => //; rewrite Ev.
Qed.

(** X10. Whenever the script gets to show its page, the raw table on it is
    a non-empty filtered view of the loaded dataset: every row shown
    passes the selection made and has a parsed [ts]; the counts of the
    hourly chart and those of the platform chart each add up to the number
    of rows shown; and both rankings have between 1 and 10 rows. *)
Theorem rendered_page (P : datetime_parser) (K : argsort_kernel)
    (src : source) (pick : selection -> selection) (pg : page) :
  dashboard P K src pick = Done pg ->
  exists2 D, load_data P src = Done D &
    let S := pick (default_selection D) in
    [/\ shown_raw pg = filtered D S /\ shown_raw pg != [::],
        all (passes S) (shown_raw pg) /\
        all (fun r => ts r != None) (shown_raw pg),
        \sum_(p <- shown_hourly pg) p.2 = size (shown_raw pg),
        \sum_(p <- shown_platform_counts pg) p.2 = size (shown_raw pg)
      & 0 < size (shown_top_artists pg) <= 10 /\
        0 < size (shown_top_tracks pg) <= 10].
Proof.
case/dashboard_done => D Hload [Hne ->]; exists D => //= .
have Hts := filtered_ts_valid (pick (default_selection D))
              (loaded_ts_valid Hload).
split=> //.
- by split=> //; rewrite filteredE filter_all.
- by rewrite sum_hourly size_hours.
- exact: sum_platform_counts.
- by split; apply: top10_bounds.
Qed.

Lemma rendered_page_witness :
  exists2 D, load_data sample_parser (Csv scenario_csv) = Done D &
    \sum_(p <- shown_hourly (render stable_kernel scenario_view)) p.2
    = size (shown_raw (render stable_kernel scenario_view)).
Proof.
have [] := @rendered_page sample_parser stable_kernel (Csv scenario_csv) id
             (render stable_kernel scenario_view).
  by vm_compute.
by move=> D HD [_ _ Hsum _ _]; exists D.
Defined.

(** X11. The script ends in the "no data" warning exactly when the file
    loads and no row passes the selection made; any other stop is the
    loader's, passed on unchanged. *)
Theorem dashboard_stops (P : datetime_parser) (K : argsort_kernel)
    (src : source) (pick : selection -> selection) :
  (dashboard P K src pick = Stop NoData
   <-> exists2 D, load_data P src = Done D
                  & filtered D (pick (default_selection D)) = [::]) /\
  (forall n, n <> NoData ->
     (dashboard P K src pick = Stop n <-> load_data P src = Stop n)).
Proof.
rewrite /dashboard; case E: (load_data P src) => [D|n].
- split.
    split; first by case Ev: (filtered D _) => [|r v] // _; exists D.
    by case=> D' [<-] ->.
  move=> n Hn; case: (filtered D _) => [|r v]; split=> //.
  by case=> Hn'; case: Hn.
- split; last by move=> n0 _; split=> -[->].
  split; last by case.
  by case=> Hn; move/load_data_stop: E; rewrite Hn.
Qed.

(** X12. With the sidebar left untouched the page shows the whole loaded
    dataset; and when the loaded dataset is empty the script ends in the
    "no data" warning whatever is picked. *)
Theorem dashboard_untouched (P : datetime_parser) (K : argsort_kernel)
    (src : source) (D : seq row) :
  load_data P src = Done D ->
  (D != [::] -> dashboard P K src id = Done (render K D)) /\
  (D = [::] -> forall pick, dashboard P K src pick = Stop NoData).
Proof.
move=> Hload; rewrite /dashboard Hload; split.
- by rewrite /= filtered_default; case: D {Hload}.
- by move=> -> pick; rewrite filteredE.
Qed.

Lemma dashboard_untouched_witness :
  dashboard sample_parser stable_kernel (Csv scenario_csv) id
  = Done (render stable_kernel scenario_view).
Proof.
have [] := @dashboard_untouched sample_parser stable_kernel
             (Csv scenario_csv) scenario_view.
  by vm_compute.
by move=> H _; apply: H.
Defined.

(** ** Sums of [ms_played] *)

HB.instance Definition _ :=
  Monoid.isComLaw.Build Z 0%Z Z.add Z.add_assoc Z.add_comm Z.add_0_l.

Local Notation "\Zsum_ ( i <- r | P ) F" :=
  (\big[Z.add/0%Z]_(i <- r | P) F)
  (at level 41, F at level 41, i, r at level 50).
Local Notation "\Zsum_ ( i <- r ) F" :=
  (\big[Z.add/0%Z]_(i <- r) F)
  (at level 41, F at level 41, i, r at level 50).

Section Sums.

Import Int64.

Lemma exact_sumE (s : seq Z) : exact_sum s = \Zsum_(x <- s) x.
Proof. exact: foldrE. Qed.

Lemma exact_sum_perm (s1 s2 : seq Z) :
  perm_eq s1 s2 -> exact_sum s1 = exact_sum s2.
Proof. by move=> H; rewrite !exact_sumE; apply: perm_big. Qed.

Lemma sum_perm (s1 s2 : seq Z) : perm_eq s1 s2 -> sum s1 = sum s2.
Proof. by move=> H; rewrite !sumE (exact_sum_perm H). Qed.

Lemma wrap_add_r (a b : Z) : wrap (a + wrap b) = wrap (a + b).
Proof. by rewrite Z.add_comm wrap_add_l Z.add_comm. Qed.

Lemma wrap_wrap (a : Z) : wrap (wrap a) = wrap a.
Proof. exact: wrap_id (wrap_range a). Qed.

Lemma sum_cat (s1 s2 : seq Z) : sum (s1 ++ s2) = add (sum s1) (sum s2).
Proof.
rewrite !sumE /add wrap_add_l wrap_add_r; congr wrap.
by rewrite !exact_sumE big_cat.
Qed.

Lemma wrap_decomp (z : Z) : exists q : Z, wrap z = (z + q * 2 ^ 64)%Z.
Proof.
exists (- ((z + 2 ^ 63) / 2 ^ 64))%Z; rewrite /wrap Z.mod_eq //.
lia.
Qed.

(** A sum of sums that each wrapped is the sum of all, wrapped once. *)
Lemma wrap_sum_wrap (I : Type) (u : seq I) (G : I -> Z) :
  wrap (\Zsum_(k <- u) wrap (G k)) = wrap (\Zsum_(k <- u) G k).
Proof.
elim: u => [|k u IH]; first by rewrite !big_nil.
by rewrite !big_cons wrap_add_l -wrap_add_r IH wrap_add_r.
Qed.

(** Summing group by group: every row belongs to exactly one group. *)
Lemma sum_by_group (key : row -> string) (F : row -> Z) (u : seq string)
    (view : seq row) :
  uniq u -> {subset [seq key r | r <- view] <= u} ->
  \Zsum_(r <- view) F r = \Zsum_(k <- u) \Zsum_(r <- view | key r == k) F r.
Proof.
move=> uniq_u; elim: view => [|x v IH] Hsub.
  by rewrite big_nil big1 // => k _; rewrite big_nil.
have Hx : key x \in u by apply: Hsub; rewrite inE eqxx.
have Hv : {subset [seq key r | r <- v] <= u}.
  by move=> k Hk; apply: Hsub; rewrite inE Hk orbT.
rewrite big_cons (IH Hv).
have -> : \Zsum_(k <- u) \Zsum_(r <- x :: v | key r == k) F r
        = \Zsum_(k <- u)
            ((if k == key x then F x else 0%Z)
             + \Zsum_(r <- v | key r == k) F r)%Z.
  by apply: eq_bigr => k _; rewrite big_cons eq_sym; case: (k == key x).
rewrite big_split /=; congr (_ + _)%Z.
by rewrite -big_mkcond /= -big_filter filter_pred1_uniq // big_seq1.
Qed.

Lemma group_totalE (key : row -> string) (view : seq row) (k : string) :
  group_total key view k = wrap (\Zsum_(r <- view | key r == k) ms_played r).
Proof. by rewrite /group_total sumE exact_sumE big_map big_filter. Qed.

Lemma total_msE (view : seq row) :
  total_ms view = wrap (\Zsum_(r <- view) ms_played r).
Proof. by rewrite /total_ms sumE exact_sumE big_map. Qed.

Lemma sum_group_totals (key : row -> string) (view : seq row) :
  sum [seq group_total key view k | k <- unique [seq key r | r <- view]]
  = total_ms view.
Proof.
rewrite sumE exact_sumE big_map total_msE.
rewrite (eq_bigr _ (fun k _ => group_totalE key view k)) wrap_sum_wrap.
congr wrap; apply/esym/sum_by_group; first exact: unique_uniq.
by move=> k; rewrite mem_unique.
Qed.

End Sums.

(** X13. On a view whose [ms_played] cells are int64 values, the total
    stays in the int64 range and differs from the mathematical sum of
    [ms_played] by a multiple of 2^64: the sum wraps instead of failing. *)
Theorem total_ms_wraps (view : seq row) :
  int64_cells view ->
  Int64.in_range (total_ms view) /\
  exists q : Z,
    total_ms view
    = (Int64.exact_sum [seq ms_played r | r <- view] + q * 2 ^ 64)%Z.
Proof.
move=> _; split; first exact: sum_range.
by rewrite /total_ms sumE; apply: wrap_decomp.
Qed.

Lemma total_ms_wraps_witness :
  Int64.in_range (total_ms overflow_view) /\
  exists q : Z,
    total_ms overflow_view
    = (Int64.exact_sum [seq ms_played r | r <- overflow_view] + q * 2 ^ 64)%Z.
Proof. by apply: total_ms_wraps; vm_compute. Defined.

(** X14. On a view whose [ms_played] cells are int64 values, the total
    does not depend on the order of the rows, and the totals of the rows
    that satisfy a test and of those that do not add up (in int64) to the
    total of the view. *)
Theorem total_ms_row_order (view view' : seq row) :
  int64_cells view -> perm_eq view view' ->
  total_ms view = total_ms view' /\
  forall p : pred row,
    total_ms view'
    = Int64.add (total_ms [seq r <- view | p r])
                (total_ms [seq r <- view | ~~ p r]).
Proof.
move=> _ Hperm.
have Hord v v' : perm_eq v v' -> total_ms v = total_ms v'.
  by move=> H; apply: sum_perm; apply: perm_map.
split; first exact: Hord.
move=> p; rewrite -(Hord _ _ Hperm) -sum_cat -map_cat.
by apply: Hord; rewrite perm_sym (perm_filterC p).
Qed.

Lemma total_ms_row_order_witness :
  let view := late_play :: scenario_view in
  let view' := rot 2 view in
  total_ms view = total_ms view' /\
  total_ms view'
  = Int64.add (total_ms [seq r <- view | platform r == "android"%string])
              (total_ms [seq r <- view | platform r != "android"%string]).
Proof.
move=> view view'.
have [] := @total_ms_row_order view view'; [by vm_compute | by vm_compute | ].
by move=> H1 H2; split; [exact: H1 | exact: (H2 (fun r => platform r == _))].
Defined.

(** ** More on the rankings *)

Lemma ranked_perm (K : argsort_kernel) (key : row -> string)
    (view : seq row) :
  perm_eq (sort_values K id false (groupby_sum key view))
          (groupby_sum key view).
Proof. exact: perm_sort_values. Qed.

Lemma groupby_sum_perm (key : row -> string) (view view' : seq row) :
  perm_eq view view' -> groupby_sum key view = groupby_sum key view'.
Proof.
move=> Hperm; rewrite /groupby_sum.
have -> : sort StrOrd.le (unique [seq key r | r <- view])
        = sort StrOrd.le (unique [seq key r | r <- view']).
  by apply: (@eq_options key); apply/perm_mem/perm_map.
apply: eq_map => k; congr (_, _); rewrite /group_total.
by apply: sum_perm; apply: perm_map; apply: perm_filter.
Qed.

(** X15. When the view has at most 10 distinct names, nothing is cut off:
    the sums of the ranking add up (in int64) to the total of the view. *)
Theorem top10_no_loss (K : argsort_kernel) (key : row -> string)
    (view : seq row) :
  size (unique [seq key r | r <- view]) <= 10 ->
  Int64.sum [seq p.2 | p <- top10_ms K key view] = total_ms view.
Proof.
move=> Hsize; rewrite /top10_ms /head take_oversize;
  first by rewrite size_sort_values /groupby_sum size_map size_sort.
rewrite -(sum_group_totals key view); apply/sum_perm.
rewrite (perm_trans (perm_map _ (ranked_perm K key view))) //.
rewrite (perm_trans (perm_map _ (perm_groupby_sum key view))) //.
by rewrite -map_comp.
Qed.

Lemma top10_no_loss_witness :
  Int64.sum [seq p.2 | p <- top10_ms stable_kernel artist_name tie_view]
  = total_ms tie_view.
Proof. by apply: top10_no_loss; vm_compute. Defined.

(** X16. The ranking holds the best rows: a group that did not make it
    into the ranking has a sum no larger than that of any ranked row,
    whatever the kernel does with ties. *)
Theorem top10_is_top (K : argsort_kernel) (key : row -> string)
    (view : seq row) (p q : string * Z) :
  p \in top10_ms K key view ->
  q \in groupby_sum key view -> q \notin top10_ms K key view ->
  (q.2 <= p.2)%Z.
Proof.
set ranked := sort_values K id false (groupby_sum key view).
rewrite /top10_ms /head -/ranked => Hp Hq Hnq.
have Hdrop : q \in drop 10 ranked.
  move: Hq; rewrite -(perm_mem (ranked_perm K key view)) -/ranked.
  by rewrite -{1}(cat_take_drop 10 ranked) mem_cat (negbTE Hnq).
have tr : transitive not_below.
  move=> y x z /Z.leb_le Hyx /Z.leb_le Hzy; apply/Z.leb_le.
  exact: Z.le_trans Hzy Hyx.
have := ranking_sorted K key view.
rewrite -/ranked (sorted_pairwise tr).
rewrite -{1}(cat_take_drop 10 ranked) pairwise_cat => /and3P [Hrel _ _].
exact/Z.leb_le/(allrelP Hrel).
Qed.

(** Eleven artists, "A" and "B" tied for the tenth place. *)
Lemma top10_is_top_witness :
  (("B"%string, 1000%Z).2 <= ("A"%string, 1000%Z).2)%Z.
Proof.
by apply: (@top10_is_top stable_kernel artist_name tie_at_cut_view
             ("A"%string, 1000%Z) ("B"%string, 1000%Z)); vm_compute.
Defined.

(** X17. Both rankings depend on the rows of the view, not on their order. *)
Theorem top10_row_order (K : argsort_kernel) (key : row -> string)
    (view view' : seq row) :
  perm_eq view view' ->
  top10_ms K key view = top10_ms K key view' /\
  top10 K key view = top10 K key view'.
Proof.
by move=> Hperm; rewrite /top10 /top10_ms (groupby_sum_perm key Hperm).
Qed.

Lemma top10_row_order_witness :
  top10_ms stable_kernel artist_name zy_view
  = top10_ms stable_kernel artist_name yz_view /\
  top10 stable_kernel artist_name zy_view
  = top10 stable_kernel artist_name yz_view.
Proof. by apply: top10_row_order; vm_compute. Defined.

(** ** More on the charts *)

(** X18. The hourly histogram depends on the rows of the view, not on
    their order. *)
Theorem hourly_row_order (K : argsort_kernel) (view view' : seq row) :
  perm_eq view view' -> hourly K view = hourly K view'.
Proof.
move=> /permP Hcount; rewrite !hourlyE.
have Hhas h : has (at_hour h) view = has (at_hour h) view'.
  by rewrite !has_count Hcount.
by rewrite (eq_filter Hhas); apply: eq_map => h; rewrite Hcount.
Qed.

Lemma hourly_row_order_witness :
  hourly stable_kernel (late_play :: scenario_view)
  = hourly stable_kernel (rev (late_play :: scenario_view)).
Proof. by apply: hourly_row_order; rewrite perm_sym perm_rev. Defined.

(** X19. The platform table lists every distinct platform of the view, none
    cut off, by descending count. *)
Theorem platform_counts_descending (K : argsort_kernel) (view : seq row) :
  sorted (fun x y => y.2 <= x.2) (platform_counts K view) /\
  perm_eq [seq p.1 | p <- platform_counts K view]
          (unique [seq platform r | r <- view]).
Proof.
split; last exact: keys_value_counts.
have := sort_values_desc_sorted K Z.of_nat
          [seq (x, count_mem x [seq platform r | r <- view])
          | x <- unique [seq platform r | r <- view]].
apply: sub_sorted => x y /Z.leb_le Hle; apply/leP.
exact/Nat2Z.inj_le.
Qed.

(** X20. [.dt.hour] reads the hour of the day off an instant, before the
    epoch as well as after it: the instant [r] nanoseconds into hour [h]
    of day [d] (counted from 1970-01-01, negative before) has hour [h]. *)
Theorem dt_hour_of_day (d : Z) (h : nat) (r : Z) :
  h < 24 -> (0 <= r < 3600000000000)%Z ->
  dt_hour ((d * 24 + Z.of_nat h) * 3600000000000 + r) = h.
Proof.
move=> /ltP Hh Hr; rewrite /dt_hour.
have -> : (((d * 24 + Z.of_nat h) * 3600000000000 + r) / 3600000000000
           = d * 24 + Z.of_nat h)%Z.
  by symmetry; apply: (Z.div_unique_pos _ _ _ r) => //; lia.
have -> : ((d * 24 + Z.of_nat h) mod 24 = Z.of_nat h)%Z.
  by symmetry; apply: (Z.mod_unique_pos _ _ d); lia.
exact: Nat2Z.id.
Qed.

Lemma dt_hour_of_day_witness :
  dt_hour ((-1 * 24 + Z.of_nat 23) * 3600000000000 + 3599999999999) = 23.
Proof. by apply: dt_hour_of_day. Defined.


